(** * Anti-crossing problem generators (dimod/generators/anti_crossing.py)

    A shallow embedding of [anti_crossing_clique] and [anti_crossing_loops]
    and of the part of the binary quadratic model they call into, with the
    properties of the models they build. *)

From Stdlib Require Import ZArith Lia.
From stdpp Require Import gmap list fin_maps strings.

Local Open Scope Z_scope.

(** ** Data model *)

(** Modelled from the spec: the variable domains of [dimod.vartypes.Vartype]
    (vartypes.py is missing), spin {-1, +1} and boolean {0, 1}. *)
Inductive Vartype : Type := SPIN | BINARY.

(** The only exception the generators and the model operations raise. *)
Inductive exception : Type := ValueError (msg : string).

Inductive result (A : Type) : Type :=
| Ok (a : A)
| Raise (e : exception).
Arguments Ok {A} a.
Arguments Raise {A} e.

(** Modelled from the spec: the weighted graph model
    (binary_quadratic_model.py is missing): its variable type, the linear
    biases (node weights) by variable, and the quadratic biases (edge
    weights) by unordered pair, stored under the key [edge u v].  Biases are
    floats in the library; every value the generators write is one of the
    integers -1, 0, 1 or a small sum of them, so they are integers here. *)
Record BQM : Type := mkBQM {
  vartype : Vartype;
  linear : gmap Z Z;
  quadratic : gmap (Z * Z) Z
}.

(** The key of the unordered pair {u, v}. *)
Definition edge (u v : Z) : Z * Z := (Z.min u v, Z.max u v).

(** A bias read with the default 0 of an unset entry. *)
Definition bias `{Countable K} (m : gmap K Z) (k : K) : Z := default 0 (m !! k).

(** Reading the model. *)
Definition get_linear (bqm : BQM) (v : Z) : option Z := linear bqm !! v.
Definition get_quadratic (bqm : BQM) (u v : Z) : option Z :=
  quadratic bqm !! edge u v.
Definition variables (bqm : BQM) : gset Z := dom (linear bqm).
Definition num_interactions (bqm : BQM) : nat := size (quadratic bqm).

(** ** Effects

    The source builds one model object by a sequence of method calls.  The
    model is threaded through the calls as a value; next to it a journal
    keeps every call made on the model library, in order, so that what a run
    called (and whether it called anything) can be stated. *)

Inductive call : Type :=
| CallInit (vt : Vartype)
| CallAddQuadratic (u v b : Z)
| CallSetQuadratic (u v b : Z)
| CallAddLinear (v b : Z)
| CallSetLinear (v b : Z).

Definition M (A : Type) : Type := list call → result A * list call.

Definition ret {A} (a : A) : M A := λ j, (Ok a, j).

Definition raise {A} (e : exception) : M A := λ j, (Raise e, j).

Definition bind {A B} (m : M A) (f : A → M B) : M B :=
  λ j, match m j with
       | (Ok a, j') => f a j'
       | (Raise e, j') => (Raise e, j')
       end.

Definition journal (c : call) : M unit := λ j, (Ok tt, j ++ [c]).

Notation "'let*' x ':=' m 'in' k" := (bind m (λ x, k))
  (at level 10, x binder, m at level 100, k at level 200).

(** [for x in l: s = body x s], stopping at the first exception. *)
Fixpoint for_in {A S} (l : list A) (body : A → S → M S) (s : S) : M S :=
  match l with
  | [] => ret s
  | x :: l' => let* s' := body x s in for_in l' body s'
  end.

(** Python's [range(a, b)]; empty when [b <= a]. *)
Definition range (a b : Z) : list Z := seqZ a (b - a).

(** Python's [int(a / b)]: true division, then truncation toward zero.  The
    float quotient is exact for the sizes a model can be built for (below
    2^53), where it is the truncated integer quotient. *)
Definition int_truediv (a b : Z) : Z := Z.quot a b.

(** ** The model operations the generators call

    [dimod.binary.binary_quadratic_model] is outside the generators' module;
    the four operations and the constructor follow the specification's data
    model. *)

(** Modelled from the spec: the constructor of the model class
    (binary_quadratic_model.py is missing): an empty model of the given
    variable type. *)
Definition BinaryQuadraticModel (vt : Vartype) : M BQM :=
  let* _ := journal (CallInit vt) in
  ret (mkBQM vt ∅ ∅).

(** Modelled from the spec: a node of the sparse graph that has no weight
    yet gets the default weight 0 (binary_quadratic_model.py is missing). *)
Definition add_variable (v : Z) (lin : gmap Z Z) : gmap Z Z :=
  match lin !! v with
  | Some _ => lin
  | None => <[v := 0]> lin
  end.

(** Modelled from the spec: addNodeWeight(i, delta), additive accumulate,
    defaulting absent to 0 (binary_quadratic_model.py is missing). *)
Definition add_linear (bqm : BQM) (v b : Z) : M BQM :=
  let* _ := journal (CallAddLinear v b) in
  ret (mkBQM (vartype bqm)
             (<[v := bias (linear bqm) v + b]> (linear bqm))
             (quadratic bqm)).

(** Modelled from the spec: setNodeWeight(i, w), overwrite
    (binary_quadratic_model.py is missing). *)
Definition set_linear (bqm : BQM) (v b : Z) : M BQM :=
  let* _ := journal (CallSetLinear v b) in
  ret (mkBQM (vartype bqm) (<[v := b]> (linear bqm)) (quadratic bqm)).

(** Modelled from the spec: addEdgeWeight(i, j, delta), additive accumulate,
    defaulting absent to 0; fails if i == j (binary_quadratic_model.py is
    missing).  Both endpoints become nodes of the graph. *)
Definition add_quadratic (bqm : BQM) (u v b : Z) : M BQM :=
  let* _ := journal (CallAddQuadratic u v b) in
  if u =? v then
    raise (ValueError "cannot add an interaction between a variable and itself")
  else
    ret (mkBQM (vartype bqm)
               (add_variable v (add_variable u (linear bqm)))
               (<[edge u v := bias (quadratic bqm) (edge u v) + b]> (quadratic bqm))).

(** Modelled from the spec: setEdgeWeight(i, j, w), overwrite
    (binary_quadratic_model.py is missing).  Edges are keyed by pairs of
    distinct nodes, so equal endpoints fail as they do for addEdgeWeight. *)
Definition set_quadratic (bqm : BQM) (u v b : Z) : M BQM :=
  let* _ := journal (CallSetQuadratic u v b) in
  if u =? v then
    raise (ValueError "cannot add an interaction between a variable and itself")
  else
    ret (mkBQM (vartype bqm)
               (add_variable v (add_variable u (linear bqm)))
               (<[edge u v := b]> (quadratic bqm))).

(** ** The generators *)

(** [anti_crossing_clique(num_variables)], lines 51-68. *)
Definition anti_crossing_clique (num_variables : Z) : M BQM :=
  if negb (num_variables mod 2 =? 0) || (num_variables <? 6) then
    raise (ValueError "num_variables must be an even number >= 6")
  else
    let* bqm := BinaryQuadraticModel SPIN in
    let hf := int_truediv num_variables 2 in
    let* bqm :=
      for_in (range 0 hf) (λ n bqm,
        let* bqm :=
          for_in (range (n + 1) hf) (λ m bqm, add_quadratic bqm n m (-1)) bqm in
        let* bqm := add_quadratic bqm n (n + hf) (-1) in
        let* bqm := add_linear bqm n 1 in
        add_linear bqm (n + hf) (-1)) bqm in
    let* bqm := set_linear bqm 1 0 in
    ret bqm.

(** [anti_crossing_loops(num_variables)], lines 107-131. *)
Definition anti_crossing_loops (num_variables : Z) : M BQM :=
  if negb (num_variables mod 2 =? 0) || (num_variables <? 8) then
    raise (ValueError "num_variables must be an even number >= 8")
  else
    let* bqm := BinaryQuadraticModel SPIN in
    let hf := int_truediv num_variables 4 in
    let* bqm :=
      for_in (range 0 hf) (λ n bqm,
        let* bqm :=
          if n mod 2 =? 1 then set_quadratic bqm n (n + hf) (-1) else ret bqm in
        let* bqm := set_quadratic bqm n ((n + 1) mod hf) (-1) in
        let* bqm := set_quadratic bqm (n + hf) ((n + 1) mod hf + hf) (-1) in
        let* bqm := set_quadratic bqm n (n + 2 * hf) (-1) in
        let* bqm := set_quadratic bqm (n + hf) (n + 3 * hf) (-1) in
        let* bqm := add_linear bqm n 1 in
        let* bqm := add_linear bqm (n + hf) 1 in
        let* bqm := add_linear bqm (n + 2 * hf) (-1) in
        add_linear bqm (n + 3 * hf) (-1)) bqm in
    let* bqm := set_linear bqm 0 0 in
    let* bqm := set_linear bqm hf 0 in
    ret bqm.

(** A call of a generator from a fresh journal: the value it returns (or the
    exception it raises) and the calls it made. *)
Definition run {A} (m : M A) : result A * list call := m [].

Definition linear_of (r : result BQM * list call) (v : Z) : option Z :=
  match r with (Ok bqm, _) => get_linear bqm v | _ => None end.

Definition quadratic_of (r : result BQM * list call) (u v : Z) : option Z :=
  match r with (Ok bqm, _) => get_quadratic bqm u v | _ => None end.

Definition journal_of (r : result BQM * list call) : list call := r.2.

(** ** Energy

    The energy function belongs to the model class, outside the generators'
    module. *)

(** The sum of [f k x] over the entries [(k, x)] of a map. *)
Definition map_sum `{Countable K} (f : K → Z → Z) (m : gmap K Z) : Z :=
  map_fold (λ k x acc, f k x + acc) 0 m.

(** Modelled from the spec: the energy of an assignment (energy evaluation
    of binary_quadratic_model.py is missing): a node weight contributes in
    proportion to its variable's value, an edge weight in proportion to the
    product of its two variables' values. *)
Definition energy (bqm : BQM) (s : Z → Z) : Z :=
  map_sum (λ v h, h * s v) (linear bqm)
  + map_sum (λ e J, J * s e.1 * s e.2) (quadratic bqm).

Definition energy_of (r : result BQM * list call) (s : Z → Z) : option Z :=
  match r with (Ok bqm, _) => Some (energy bqm s) | _ => None end.

(** The assignment giving every variable the value +1. *)
Definition all_up : Z → Z := λ _, 1.

(** An assignment of spin values to the variables of a model. *)
Definition spin_sample (bqm : BQM) (s : Z → Z) : Prop :=
  ∀ v, v ∈ variables bqm → s v = 1 ∨ s v = -1.


(** The size preconditions of the two generators. *)
Definition valid_clique (n : Z) : Prop := n mod 2 = 0 ∧ 6 ≤ n.
Definition valid_loops (n : Z) : Prop := n mod 2 = 0 ∧ 8 ≤ n.

(** An edge call with two distinct endpoints (any other call qualifies). *)
Definition distinct_endpoints (c : call) : Prop :=
  match c with
  | CallAddQuadratic u v _ | CallSetQuadratic u v _ => u ≠ v
  | _ => True
  end.

(** ** Both generators *)





(** A computation whose outcome does not depend on the journal it starts
    from. *)
Definition stateless {A} (m : M A) : Prop := ∀ j1 j2, (m j1).1 = (m j2).1.



(** ** Specifications of runs

    [wp m j Q]: run from the journal [j], [m] returns a value and leaves a
    journal that satisfy [Q]; in particular it raises nothing. *)

Definition wp {A} (m : M A) (j : list call) (Q : A → list call → Prop) : Prop :=
  match m j with
  | (Ok a, j') => Q a j'
  | (Raise _, _) => False
  end.

(** ** The state of the model during the loops and at the end *)

(** [clique_state hf k m]: rows [0 .. k-1] of the outer loop are complete
    and row [k] has its inner loop done up to column [m] (exclusive). *)
Record clique_state (hf k m : Z) (bqm : BQM) (j : list call) : Prop := {
  cs_vartype : vartype bqm = SPIN;
  cs_dom : ∀ v, is_Some (linear bqm !! v) → 0 ≤ v < 2 * hf;
  cs_some : ∀ v, 0 ≤ v < k ∨ hf ≤ v < hf + k → is_Some (linear bqm !! v);
  cs_bias : ∀ v,
    bias (linear bqm) v
    = if decide (0 ≤ v < k) then 1
      else if decide (hf ≤ v < hf + k) then -1 else 0;
  cs_quad : ∀ u v,
    quadratic bqm !! (u, v)
    = if decide ((0 ≤ u < k ∧ (u < v < hf ∨ v = u + hf)) ∨ (u = k ∧ k < v < m))
      then Some (-1) else None;
  cs_size :
    2 * Z.of_nat (size (quadratic bqm)) = k * (2 * hf - k + 1) + 2 * (m - k - 1);
  cs_energy : ∀ s,
    (∀ v, 0 ≤ v < 2 * hf → s v = 1 ∨ s v = -1) →
    energy bqm all_up ≤ energy bqm s;
  cs_calls : Forall distinct_endpoints j
}.

(** What [anti_crossing_clique] returns for [num_variables = 2 * hf]. *)
Record clique_model (hf : Z) (bqm : BQM) (j : list call) : Prop := {
  cm_vartype : vartype bqm = SPIN;
  cm_variables : ∀ v, v ∈ variables bqm ↔ 0 ≤ v < 2 * hf;
  cm_linear : ∀ v,
    get_linear bqm v
    = if decide (0 ≤ v < hf) then (if decide (v = 1) then Some 0 else Some 1)
      else if decide (hf ≤ v < 2 * hf) then Some (-1) else None;
  cm_quadratic : ∀ u v,
    quadratic bqm !! (u, v)
    = if decide (0 ≤ u < hf ∧ (u < v < hf ∨ v = u + hf))
      then Some (-1) else None;
  cm_size : 2 * Z.of_nat (num_interactions bqm) = hf * (hf + 1);
  cm_energy : ∀ s, spin_sample bqm s → energy bqm all_up ≤ energy bqm s;
  cm_calls : Forall distinct_endpoints j
}.

(** [loops_state hf k]: iterations [0 .. k-1] of the loop are complete. *)
Record loops_state (hf k : Z) (bqm : BQM) (j : list call) : Prop := {
  ls_vartype : vartype bqm = SPIN;
  ls_dom : ∀ v, is_Some (linear bqm !! v) → 0 ≤ v < 4 * hf;
  ls_some : ∀ v,
    0 ≤ v < k ∨ hf ≤ v < hf + k
    ∨ 2 * hf ≤ v < 2 * hf + k ∨ 3 * hf ≤ v < 3 * hf + k →
    is_Some (linear bqm !! v);
  ls_bias : ∀ v,
    bias (linear bqm) v
    = if decide (0 ≤ v < k ∨ hf ≤ v < hf + k) then 1
      else if decide (2 * hf ≤ v < 2 * hf + k ∨ 3 * hf ≤ v < 3 * hf + k)
           then -1 else 0;
  ls_weights : ∀ e x, quadratic bqm !! e = Some x → x = -1;
  ls_keys : ∀ u v,
    is_Some (quadratic bqm !! (u, v)) →
    0 ≤ u < v
    ∧ (v < 2 * hf ∨ 2 * hf ≤ v < 2 * hf + k ∨ 3 * hf ≤ v < 3 * hf + k);
  ls_energy : ∀ s,
    (∀ v, 0 ≤ v < 4 * hf → s v = 1 ∨ s v = -1) →
    energy bqm all_up ≤ energy bqm s;
  ls_calls : Forall distinct_endpoints j
}.

(** What [anti_crossing_loops] returns for [hf = int(num_variables / 4)]. *)
Record loops_model (hf : Z) (bqm : BQM) (j : list call) : Prop := {
  lm_vartype : vartype bqm = SPIN;
  lm_variables : ∀ v, v ∈ variables bqm ↔ 0 ≤ v < 4 * hf;
  lm_linear : ∀ v,
    get_linear bqm v
    = if decide (0 ≤ v < 2 * hf)
      then (if decide (v = 0 ∨ v = hf) then Some 0 else Some 1)
      else if decide (2 * hf ≤ v < 4 * hf) then Some (-1) else None;
  lm_weights : ∀ e x, quadratic bqm !! e = Some x → x = -1;
  lm_keys : ∀ u v,
    is_Some (quadratic bqm !! (u, v)) → 0 ≤ u < v ∧ v < 4 * hf;
  lm_energy : ∀ s, spin_sample bqm s → energy bqm all_up ≤ energy bqm s;
  lm_calls : Forall distinct_endpoints j
}.

(** ** Energies of the two uniform assignments and the energy above the
    ground state *)











(** ** Sums over maps and the energy of an updated model *)

Section map_sum.
Context `{Countable K}.
Implicit Types (m : gmap K Z) (f : K → Z → Z).


Lemma map_sum_insert_None f m k x :
  m !! k = None → map_sum f (<[k:=x]> m) = f k x + map_sum f m.
Proof.
  intros Hk. unfold map_sum.
  rewrite map_fold_insert_L; [done | intros; lia | done].
Qed.

Lemma map_sum_insert f m k x :
  map_sum f (<[k:=x]> m) = map_sum f m + f k x - from_option (f k) 0 (m !! k).
Proof.
  destruct (m !! k) as [y|] eqn:Hk; simpl.
  - rewrite <-(insert_delete_eq m).
    rewrite map_sum_insert_None by apply lookup_delete_eq.
    rewrite <-(insert_delete_id m k y) at 2 by done.
    rewrite map_sum_insert_None by apply lookup_delete_eq. lia.
  - rewrite map_sum_insert_None by done. lia.
Qed.

Lemma bias_insert m k x k' :
  bias (<[k:=x]> m) k' = if decide (k = k') then x else bias m k'.
Proof. unfold bias. rewrite lookup_insert. by case_decide. Qed.

Lemma bias_None m k : m !! k = None → bias m k = 0.
Proof. unfold bias. by intros ->. Qed.

End map_sum.

Lemma add_variable_is_Some v lin w :
  is_Some (add_variable v lin !! w) ↔ w = v ∨ is_Some (lin !! w).
Proof.
  unfold add_variable. destruct (lin !! v) as [x|] eqn:Hv.
  - split; [by right | intros [->|?]; [by eexists | done]].
  - rewrite lookup_insert_is_Some. split.
    + intros [->|[_ ?]]; [by left | by right].
    + intros [->|?]; [by left |].
      destruct (decide (v = w)); [by left | by right].
Qed.

Lemma bias_add_variable v lin w : bias (add_variable v lin) w = bias lin w.
Proof.
  unfold add_variable. destruct (lin !! v) as [x|] eqn:Hv; [done|].
  rewrite bias_insert. case_decide; [subst; by rewrite bias_None | done].
Qed.

Lemma map_sum_add_variable (s : Z → Z) v lin :
  map_sum (λ v h, h * s v) (add_variable v lin) = map_sum (λ v h, h * s v) lin.
Proof.
  unfold add_variable. destruct (lin !! v) as [x|] eqn:Hv; [done|].
  rewrite map_sum_insert_None by done. lia.
Qed.

Lemma edge_lt u v : u < v → edge u v = (u, v).
Proof. intros. unfold edge. f_equal; lia. Qed.

Lemma edge_gt u v : v < u → edge u v = (v, u).
Proof. intros. unfold edge. f_equal; lia. Qed.

Lemma edge_product (s : Z → Z) u v : s (edge u v).1 * s (edge u v).2 = s u * s v.
Proof.
  destruct (Z.lt_trichotomy u v) as [?|[->|?]].
  - by rewrite edge_lt.
  - unfold edge. by rewrite Z.min_id, Z.max_id.
  - rewrite edge_gt by done. simpl. lia.
Qed.

(** A node weight accumulated, a node weight overwritten, an endpoint
    registered, an edge weight accumulated and an edge weight overwritten
    change the energy of an assignment by the term they change. *)
Lemma energy_add_linear vt L Q v b s :
  energy (mkBQM vt (<[v := bias L v + b]> L) Q) s
  = energy (mkBQM vt L Q) s + b * s v.
Proof.
  unfold energy; simpl. rewrite map_sum_insert. unfold bias.
  destruct (L !! v); simpl; lia.
Qed.

Lemma energy_set_linear vt L Q v b s :
  energy (mkBQM vt (<[v := b]> L) Q) s
  = energy (mkBQM vt L Q) s + (b - bias L v) * s v.
Proof.
  unfold energy; simpl. rewrite map_sum_insert. unfold bias.
  destruct (L !! v); simpl; lia.
Qed.

Lemma energy_add_variable vt L Q v s :
  energy (mkBQM vt (add_variable v L) Q) s = energy (mkBQM vt L Q) s.
Proof. unfold energy; simpl. by rewrite map_sum_add_variable. Qed.

Lemma energy_add_quadratic vt L Q u v b s :
  energy (mkBQM vt L (<[edge u v := bias Q (edge u v) + b]> Q)) s
  = energy (mkBQM vt L Q) s + b * (s u * s v).
Proof.
  unfold energy; simpl. rewrite map_sum_insert. unfold bias.
  rewrite <-(edge_product s u v).
  destruct (Q !! edge u v); simpl; lia.
Qed.

Lemma energy_set_quadratic vt L Q u v b s :
  energy (mkBQM vt L (<[edge u v := b]> Q)) s
  = energy (mkBQM vt L Q) s + (b - bias Q (edge u v)) * (s u * s v).
Proof.
  unfold energy; simpl. rewrite map_sum_insert. unfold bias.
  rewrite <-(edge_product s u v).
  destruct (Q !! edge u v); simpl; lia.
Qed.

(** ** Reasoning about runs *)

Lemma wp_ret {A} (a : A) j Q : Q a j → wp (ret a) j Q.
Proof. done. Qed.

Lemma wp_bind {A B} (m : M A) (f : A → M B) j Q :
  wp m j (λ a j', wp (f a) j' Q) → wp (bind m f) j Q.
Proof. unfold wp, bind. by destruct (m j) as [[a|e] j']. Qed.

Lemma wp_mono {A} (m : M A) j (Q Q' : A → list call → Prop) :
  wp m j Q → (∀ a j', Q a j' → Q' a j') → wp m j Q'.
Proof. unfold wp. destruct (m j) as [[a|e] j']; [auto | done]. Qed.

Lemma wp_returns {A} (m : M A) j Q :
  wp m j Q ↔ ∃ a j', m j = (Ok a, j') ∧ Q a j'.
Proof.
  unfold wp. destruct (m j) as [[a|e] j']; split.
  - by exists a, j'.
  - by intros (? & ? & [= <- <-] & ?).
  - done.
  - by intros (? & ? & [=] & ?).
Qed.

Lemma wp_add_linear bqm v b j Q :
  Q (mkBQM (vartype bqm) (<[v := bias (linear bqm) v + b]> (linear bqm))
           (quadratic bqm))
    (j ++ [CallAddLinear v b]) →
  wp (add_linear bqm v b) j Q.
Proof. done. Qed.

Lemma wp_set_linear bqm v b j Q :
  Q (mkBQM (vartype bqm) (<[v := b]> (linear bqm)) (quadratic bqm))
    (j ++ [CallSetLinear v b]) →
  wp (set_linear bqm v b) j Q.
Proof. done. Qed.

Lemma wp_add_quadratic bqm u v b j Q :
  u ≠ v →
  Q (mkBQM (vartype bqm) (add_variable v (add_variable u (linear bqm)))
           (<[edge u v := bias (quadratic bqm) (edge u v) + b]> (quadratic bqm)))
    (j ++ [CallAddQuadratic u v b]) →
  wp (add_quadratic bqm u v b) j Q.
Proof.
  intros Huv HQ. unfold wp, add_quadratic, bind, journal.
  by rewrite (proj2 (Z.eqb_neq u v) Huv).
Qed.

Lemma wp_set_quadratic bqm u v b j Q :
  u ≠ v →
  Q (mkBQM (vartype bqm) (add_variable v (add_variable u (linear bqm)))
           (<[edge u v := b]> (quadratic bqm)))
    (j ++ [CallSetQuadratic u v b]) →
  wp (set_quadratic bqm u v b) j Q.
Proof.
  intros Huv HQ. unfold wp, set_quadratic, bind, journal.
  by rewrite (proj2 (Z.eqb_neq u v) Huv).
Qed.

Lemma wp_BinaryQuadraticModel vt j Q :
  Q (mkBQM vt ∅ ∅) (j ++ [CallInit vt]) → wp (BinaryQuadraticModel vt) j Q.
Proof. done. Qed.

Lemma range_nil a b : b ≤ a → range a b = [].
Proof. intros. unfold range. apply seqZ_nil. lia. Qed.

Lemma range_cons a b : a < b → range a b = a :: range (a + 1) b.
Proof.
  intros. unfold range. rewrite seqZ_cons by lia.
  f_equal. f_equal; lia.
Qed.

(** The invariant rule of a loop over [range(a, b)]. *)
Lemma wp_for_range {S} (I : Z → S → list call → Prop)
    (body : Z → S → M S) a b s j (Q : S → list call → Prop) :
  a ≤ b →
  I a s j →
  (∀ k s j, a ≤ k < b → I k s j → wp (body k s) j (I (k + 1))) →
  (∀ s j, I b s j → Q s j) →
  wp (for_in (range a b) body s) j Q.
Proof.
  intros Hab HI Hbody HQ.
  remember (Z.to_nat (b - a)) as d eqn:Hd.
  revert a s j Hab HI Hbody Hd.
  induction d as [|d IH]; intros a s j Hab HI Hbody Hd.
  - assert (a = b) as -> by lia. rewrite range_nil by lia.
    apply wp_ret. auto.
  - rewrite range_cons by lia. simpl. apply wp_bind.
    eapply wp_mono; [apply Hbody; [lia | done] |].
    intros s' j' HI'. apply IH; [lia | done | | lia].
    intros k s0 j0 Hk. apply Hbody. lia.
Qed.

(** ** The clique generator: its loops keep [clique_state] *)

Lemma spin_product_le (a b : Z) :
  a = 1 ∨ a = -1 → b = 1 ∨ b = -1 → a * b ≤ 1.
Proof. intros [->| ->] [->| ->]; lia. Qed.

Lemma spin_pendant_le (a b : Z) :
  a = 1 ∨ a = -1 → b = 1 ∨ b = -1 → -1 ≤ - (a * b) + a - b.
Proof. intros [->| ->] [->| ->]; lia. Qed.

Section clique.
Variable hf : Z.
Hypothesis Hhf : 3 ≤ hf.

Lemma clique_state_init :
  clique_state hf 0 1 (mkBQM SPIN ∅ ∅) [CallInit SPIN].
Proof.
  split; simpl.
  - done.
  - intros v [x Hx]. by rewrite lookup_empty in Hx.
  - intros v. lia.
  - intros v. rewrite bias_None by apply lookup_empty.
    repeat case_decide; lia.
  - intros u v. rewrite lookup_empty. case_decide; [lia | done].
  - rewrite map_size_empty. lia.
  - done.
  - by repeat constructor.
Qed.

(** One iteration of the inner loop: the edge between [n] and [m]. *)
Lemma clique_inner_step n m bqm j :
  0 ≤ n → n < m < hf →
  clique_state hf n m bqm j →
  wp (add_quadratic bqm n m (-1)) j (clique_state hf n (m + 1)).
Proof.
  intros Hn Hm [Hvt Hdom Hsome Hbias Hquad Hsize Hen Hj].
  assert (quadratic bqm !! (n, m) = None) as Hfresh.
  { rewrite Hquad. case_decide; [lia | done]. }
  apply wp_add_quadratic; [lia |].
  rewrite (edge_lt n m) by lia.
  split; simpl.
  - done.
  - intros v. rewrite !add_variable_is_Some.
    intros [->|[->|?]]; [lia | lia | auto].
  - intros v Hv. rewrite !add_variable_is_Some. auto.
  - intros v. rewrite !bias_add_variable. apply Hbias.
  - intros u v. rewrite lookup_insert, Hquad, bias_None by done.
    case_decide as Heq; [injection Heq as <- <- | ].
    + case_decide; [done | lia].
    + repeat case_decide; try done; exfalso;
        (assert (u = n ∧ v = m) as [-> ->] by lia; done) || lia.
  - rewrite map_size_insert_None by done. lia.
  - intros s Hs. rewrite <-(edge_lt n m) by lia.
    rewrite !energy_add_quadratic, !energy_add_variable.
    specialize (Hen s Hs).
    pose proof (spin_product_le (s n) (s m) (Hs n ltac:(lia)) (Hs m ltac:(lia))).
    destruct bqm; simpl in *. unfold all_up at 2 3. lia.
  - apply Forall_app; split; [done | repeat constructor; simpl; lia].
Qed.

(** One iteration of the outer loop: row [n], its pendant edge and the
    two node weights. *)
Lemma clique_outer_step n bqm j :
  0 ≤ n < hf →
  clique_state hf n (n + 1) bqm j →
  wp (let* bqm :=
        for_in (range (n + 1) hf) (λ m bqm, add_quadratic bqm n m (-1)) bqm in
      let* bqm := add_quadratic bqm n (n + hf) (-1) in
      let* bqm := add_linear bqm n 1 in
      add_linear bqm (n + hf) (-1)) j
     (λ bqm j, clique_state hf (n + 1) (n + 1 + 1) bqm j).
Proof.
  intros Hn Hstart. apply wp_bind.
  apply (wp_for_range (clique_state hf n)); [lia | done | |].
  { intros m b0 j0 Hm Hst. apply clique_inner_step; [lia | lia | done]. }
  clear bqm j Hstart.
  intros bqm j [Hvt Hdom Hsome Hbias Hquad Hsize Hen Hj].
  assert (quadratic bqm !! (n, n + hf) = None) as Hfresh.
  { rewrite Hquad. case_decide; [lia | done]. }
  apply wp_bind, wp_add_quadratic; [lia |].
  apply wp_bind, wp_add_linear, wp_add_linear. simpl.
  rewrite (edge_lt n (n + hf)) by lia.
  split; simpl.
  - done.
  - intros v. rewrite !lookup_insert_is_Some, !add_variable_is_Some.
    intros [?|[_ [?|[_ [?|[?|?]]]]]]; try lia. auto.
  - intros v Hv. rewrite !lookup_insert_is_Some, !add_variable_is_Some.
    destruct (decide (n + hf = v)); [by left | right; split; [done |]].
    destruct (decide (n = v)); [by left | right; split; [done |]].
    right; right. apply Hsome. lia.
  - intros v. rewrite !bias_insert, !bias_add_variable, !Hbias.
    repeat case_decide; lia.
  - intros u v. rewrite lookup_insert, Hquad, bias_None by done.
    case_decide as Heq; [injection Heq as <- <- | ].
    + case_decide; [done | lia].
    + repeat case_decide; try done; exfalso;
        (assert (u = n ∧ v = n + hf) as [-> ->] by lia; done) || lia.
  - rewrite map_size_insert_None by done. lia.
  - intros s Hs. rewrite <-(edge_lt n (n + hf)) by lia.
    rewrite !energy_add_linear, !energy_add_quadratic, !energy_add_variable.
    specialize (Hen s Hs).
    pose proof (spin_pendant_le (s n) (s (n + hf))
                  (Hs n ltac:(lia)) (Hs (n + hf) ltac:(lia))).
    destruct bqm; simpl in *. unfold all_up at 2 3 4 5. lia.
  - rewrite !Forall_app. repeat split; try done; repeat constructor.
    simpl. lia.
Qed.
End clique.

Lemma lookup_of_bias `{Countable K} (m : gmap K Z) k :
  is_Some (m !! k) → m !! k = Some (bias m k).
Proof. unfold bias. by intros [x ->]. Qed.

Lemma even_half n : n mod 2 = 0 → 0 ≤ n → n = 2 * int_truediv n 2.
Proof.
  intros Hmod Hn. unfold int_truediv. rewrite Z.quot_div_nonneg by lia.
  rewrite (Z.div_mod n 2) at 1 by lia. lia.
Qed.

Lemma clique_run n :
  valid_clique n →
  wp (anti_crossing_clique n) [] (clique_model (int_truediv n 2)).
Proof.
  intros [Hmod Hn]. unfold anti_crossing_clique.
  rewrite (proj2 (Z.eqb_eq _ _) Hmod), (proj2 (Z.ltb_ge _ _) Hn). simpl.
  pose proof (even_half n Hmod ltac:(lia)) as Hhalf.
  set (hf := int_truediv n 2) in *.
  assert (3 ≤ hf) as Hhf by lia.
  apply wp_bind, wp_BinaryQuadraticModel. simpl.
  apply wp_bind.
  apply (wp_for_range (λ k, clique_state hf k (k + 1))); [lia | | |].
  { apply clique_state_init. }
  { intros k bqm j Hk Hst. by apply clique_outer_step. }
  intros bqm j [Hvt Hdom Hsome Hbias Hquad Hsize Hen Hj].
  apply wp_bind, wp_set_linear, wp_ret.
  assert (∀ v, is_Some (<[1:=0]> (linear bqm) !! v) ↔ 0 ≤ v < 2 * hf) as Hvars.
  { intros v. rewrite lookup_insert_is_Some. split.
    - intros [<-|[_ ?]]; [lia | auto].
    - intros Hv. destruct (decide (1 = v)); [by left | right].
      split; [done |]. apply Hsome. lia. }
  split; simpl.
  - done.
  - intros v. unfold variables; simpl. by rewrite elem_of_dom.
  - intros v. unfold get_linear; simpl.
    destruct (decide (0 ≤ v < 2 * hf)) as [Hv|Hv].
    + rewrite lookup_of_bias by by apply Hvars.
      rewrite bias_insert, Hbias. repeat case_decide; done || lia.
    + destruct (<[1:=0]> (linear bqm) !! v) as [x|] eqn:Hx.
      * exfalso. apply Hv, Hvars. by eexists.
      * repeat case_decide; done || lia.
  - intros u v. rewrite Hquad. repeat case_decide; done || lia.
  - unfold num_interactions; simpl. lia.
  - intros s Hs. rewrite !energy_set_linear.
    assert (∀ v, 0 ≤ v < 2 * hf → s v = 1 ∨ s v = -1) as Hs'.
    { intros v Hv. apply Hs. unfold variables; simpl.
      by apply elem_of_dom, Hvars. }
    specialize (Hen s Hs'). rewrite Hbias.
    destruct (Hs' 1 ltac:(lia)) as [H1|H1];
      destruct bqm; simpl in *; unfold all_up at 2;
      repeat case_decide; lia.
  - apply Forall_app; split; [done | by repeat constructor].
Qed.

(** ** The loops generator: its loop keeps [loops_state] *)

Lemma succ_mod_range hf n :
  2 ≤ hf → 0 ≤ n < hf → 0 ≤ (n + 1) mod hf < hf ∧ (n + 1) mod hf ≠ n.
Proof.
  intros Hhf Hn. split; [apply Z.mod_pos_bound; lia |].
  destruct (decide (n + 1 < hf)).
  - rewrite Z.mod_small by lia. lia.
  - replace (n + 1) with hf by lia. rewrite Z.mod_same by lia. lia.
Qed.

Lemma spin_overwrite_le (β a b : Z) :
  β = 0 ∨ β = -1 → a = 1 ∨ a = -1 → b = 1 ∨ b = -1 →
  (-1 - β) * (1 * 1) ≤ (-1 - β) * (a * b).
Proof. intros [->| ->] [->| ->] [->| ->]; lia. Qed.

Section loops.
Variable hf : Z.
Hypothesis Hhf : 2 ≤ hf.

Lemma loops_state_init :
  loops_state hf 0 (mkBQM SPIN ∅ ∅) [CallInit SPIN].
Proof.
  split; simpl.
  - done.
  - intros v [x Hx]. by rewrite lookup_empty in Hx.
  - intros v. lia.
  - intros v. rewrite bias_None by apply lookup_empty.
    repeat case_decide; lia.
  - intros e x. by rewrite lookup_empty.
  - intros u v [x Hx]. by rewrite lookup_empty in Hx.
  - done.
  - by repeat constructor.
Qed.

(** An edge written inside the two loops (a cross-link or a cycle edge):
    it may overwrite an edge already there. *)
Lemma loops_edge_step k u v bqm j :
  0 ≤ u < 2 * hf → 0 ≤ v < 2 * hf → u ≠ v →
  loops_state hf k bqm j →
  wp (set_quadratic bqm u v (-1)) j (loops_state hf k).
Proof.
  intros Hu Hv Huv [Hvt Hdom Hsome Hbias Hw Hkeys Hen Hj].
  apply wp_set_quadratic; [done |].
  split; simpl.
  - done.
  - intros w. rewrite !add_variable_is_Some.
    intros [->|[->|?]]; [lia | lia | auto].
  - intros w Hw'. rewrite !add_variable_is_Some. auto.
  - intros w. rewrite !bias_add_variable. apply Hbias.
  - intros e x. rewrite lookup_insert. case_decide; [congruence | apply Hw].
  - intros a b. rewrite lookup_insert_is_Some.
    intros [Heq|[_ ?]]; [| by apply Hkeys].
    unfold edge in Heq. injection Heq as <- <-. lia.
  - intros s Hs. rewrite !energy_set_quadratic, !energy_add_variable.
    specialize (Hen s Hs).
    assert (bias (quadratic bqm) (edge u v) = 0
            ∨ bias (quadratic bqm) (edge u v) = -1) as Hβ.
    { unfold bias. destruct (quadratic bqm !! edge u v) as [x|] eqn:Hx.
      - right. simpl. by apply (Hw (edge u v)).
      - by left. }
    pose proof (spin_overwrite_le _ (s u) (s v) Hβ
                  (Hs u ltac:(lia)) (Hs v ltac:(lia))).
    destruct bqm; simpl in *. unfold all_up at 2 3. lia.
  - apply Forall_app; split; [done | by repeat constructor].
Qed.
(** The second half of an iteration: the two decoration edges, which are
    new edges, and the four node weights. *)
Lemma loops_decor_step n bqm j :
  0 ≤ n < hf →
  loops_state hf n bqm j →
  wp (let* bqm := set_quadratic bqm n (n + 2 * hf) (-1) in
      let* bqm := set_quadratic bqm (n + hf) (n + 3 * hf) (-1) in
      let* bqm := add_linear bqm n 1 in
      let* bqm := add_linear bqm (n + hf) 1 in
      let* bqm := add_linear bqm (n + 2 * hf) (-1) in
      add_linear bqm (n + 3 * hf) (-1)) j
     (loops_state hf (n + 1)).
Proof.
  intros Hn [Hvt Hdom Hsome Hbias Hw Hkeys Hen Hj].
  assert (edge n (n + 2 * hf) = (n, n + 2 * hf)) as He1 by (apply edge_lt; lia).
  assert (edge (n + hf) (n + 3 * hf) = (n + hf, n + 3 * hf)) as He2
    by (apply edge_lt; lia).
  assert (quadratic bqm !! edge n (n + 2 * hf) = None) as Hf1.
  { rewrite He1. apply eq_None_not_Some. intros Hx.
    apply Hkeys in Hx. lia. }
  assert (quadratic bqm !! edge (n + hf) (n + 3 * hf) = None) as Hf2.
  { rewrite He2. apply eq_None_not_Some. intros Hx.
    apply Hkeys in Hx. lia. }
  apply wp_bind, wp_set_quadratic; [lia |].
  apply wp_bind, wp_set_quadratic; [lia |].
  apply wp_bind, wp_add_linear, wp_bind, wp_add_linear.
  apply wp_bind, wp_add_linear, wp_add_linear. simpl.
  split; simpl.
  - done.
  - intros v. rewrite !lookup_insert_is_Some, !add_variable_is_Some.
    intros [?|[_ [?|[_ [?|[_ [?|[_ [?|[?|[?|[?|?]]]]]]]]]]]]; try lia. auto.
  - intros v Hv. rewrite !lookup_insert_is_Some, !add_variable_is_Some.
    destruct (decide (n + 3 * hf = v)); [by left | right; split; [done |]].
    destruct (decide (n + 2 * hf = v)); [by left | right; split; [done |]].
    destruct (decide (n + hf = v)); [by left | right; split; [done |]].
    destruct (decide (n = v)); [by left | right; split; [done |]].
    do 4 right. apply Hsome. lia.
  - intros v. rewrite !bias_insert, !bias_add_variable, !Hbias.
    repeat case_decide; lia.
  - intros e x. rewrite !lookup_insert.
    repeat case_decide; [congruence | congruence | apply Hw].
  - intros a b. rewrite !lookup_insert_is_Some, He1, He2.
    intros [Heq|[_ [Heq|[_ Hx]]]].
    + injection Heq as <- <-. lia.
    + injection Heq as <- <-. lia.
    + apply Hkeys in Hx. lia.
  - intros s Hs.
    rewrite !energy_add_linear, !energy_set_quadratic, !energy_add_variable.
    rewrite bias_insert, He1, He2.
    case_decide as Heq; [injection Heq; lia |].
    rewrite <-He1, <-He2, !bias_None by done.
    specialize (Hen s Hs).
    pose proof (spin_pendant_le (s n) (s (n + 2 * hf))
                  (Hs n ltac:(lia)) (Hs (n + 2 * hf) ltac:(lia))).
    pose proof (spin_pendant_le (s (n + hf)) (s (n + 3 * hf))
                  (Hs (n + hf) ltac:(lia)) (Hs (n + 3 * hf) ltac:(lia))).
    destruct bqm; simpl in *. unfold all_up at 2 3 4 5 6 7 8 9. lia.
  - rewrite !Forall_app. repeat split; try done; repeat constructor;
      simpl; lia.
Qed.

(** One iteration of the loop. *)
Lemma loops_body_step n bqm j :
  0 ≤ n < hf →
  loops_state hf n bqm j →
  wp (let* bqm :=
        if n mod 2 =? 1 then set_quadratic bqm n (n + hf) (-1) else ret bqm in
      let* bqm := set_quadratic bqm n ((n + 1) mod hf) (-1) in
      let* bqm := set_quadratic bqm (n + hf) ((n + 1) mod hf + hf) (-1) in
      let* bqm := set_quadratic bqm n (n + 2 * hf) (-1) in
      let* bqm := set_quadratic bqm (n + hf) (n + 3 * hf) (-1) in
      let* bqm := add_linear bqm n 1 in
      let* bqm := add_linear bqm (n + hf) 1 in
      let* bqm := add_linear bqm (n + 2 * hf) (-1) in
      add_linear bqm (n + 3 * hf) (-1)) j
     (loops_state hf (n + 1)).
Proof.
  intros Hn Hst.
  destruct (succ_mod_range hf n Hhf Hn) as [Hc Hcn].
  apply wp_bind.
  apply (wp_mono _ _ (loops_state hf n)).
  { destruct (n mod 2 =? 1); [| by apply wp_ret].
    apply loops_edge_step; [lia | lia | lia | done]. }
  clear bqm j Hst. intros bqm j Hst. apply wp_bind.
  apply (wp_mono _ _ (loops_state hf n)).
  { apply loops_edge_step; [lia | lia | lia | done]. }
  clear bqm j Hst. intros bqm j Hst. apply wp_bind.
  apply (wp_mono _ _ (loops_state hf n)).
  { apply loops_edge_step; [lia | lia | lia | done]. }
  clear bqm j Hst. intros bqm j Hst.
  by apply loops_decor_step.
Qed.
End loops.

Lemma quarter_bounds n :
  8 ≤ n → 2 ≤ int_truediv n 4 ∧ 4 * int_truediv n 4 ≤ n < 4 * int_truediv n 4 + 4.
Proof.
  intros Hn. unfold int_truediv. rewrite Z.quot_div_nonneg by lia.
  pose proof (Z.div_mod n 4 ltac:(lia)).
  pose proof (Z.mod_pos_bound n 4 ltac:(lia)). lia.
Qed.

Lemma loops_run n :
  valid_loops n →
  wp (anti_crossing_loops n) [] (loops_model (int_truediv n 4)).
Proof.
  intros [Hmod Hn]. unfold anti_crossing_loops.
  rewrite (proj2 (Z.eqb_eq _ _) Hmod), (proj2 (Z.ltb_ge _ _) Hn). simpl.
  destruct (quarter_bounds n Hn) as [Hhf _].
  set (hf := int_truediv n 4) in *.
  apply wp_bind, wp_BinaryQuadraticModel. simpl.
  apply wp_bind.
  apply (wp_for_range (loops_state hf)); [lia | | |].
  { apply loops_state_init. }
  { intros k bqm j Hk Hst. by apply loops_body_step. }
  intros bqm j [Hvt Hdom Hsome Hbias Hw Hkeys Hen Hj].
  apply wp_bind, wp_set_linear, wp_bind, wp_set_linear, wp_ret. simpl.
  assert (∀ v, is_Some (<[hf:=0]> (<[0:=0]> (linear bqm)) !! v)
               ↔ 0 ≤ v < 4 * hf) as Hvars.
  { intros v. rewrite !lookup_insert_is_Some. split.
    - intros [<-|[_ [<-|[_ ?]]]]; [lia | lia | auto].
    - intros Hv. destruct (decide (hf = v)); [by left | right].
      split; [done |]. destruct (decide (0 = v)); [by left | right].
      split; [done |]. apply Hsome. lia. }
  split; simpl.
  - done.
  - intros v. unfold variables; simpl. by rewrite elem_of_dom.
  - intros v. unfold get_linear; simpl.
    destruct (decide (0 ≤ v < 4 * hf)) as [Hv|Hv].
    + rewrite lookup_of_bias by by apply Hvars.
      rewrite !bias_insert, Hbias. repeat case_decide; done || lia.
    + destruct (<[hf:=0]> (<[0:=0]> (linear bqm)) !! v) as [x|] eqn:Hx.
      * exfalso. apply Hv, Hvars. by eexists.
      * repeat case_decide; done || lia.
  - done.
  - intros u v Hx. apply Hkeys in Hx. lia.
  - intros s Hs. rewrite !energy_set_linear.
    assert (∀ v, 0 ≤ v < 4 * hf → s v = 1 ∨ s v = -1) as Hs'.
    { intros v Hv. apply Hs. unfold variables; simpl.
      by apply elem_of_dom, Hvars. }
    specialize (Hen s Hs'). rewrite bias_insert, !Hbias.
    destruct (Hs' 0 ltac:(lia)) as [H0|H0];
      destruct (Hs' hf ltac:(lia)) as [H1|H1];
      destruct bqm; simpl in *; unfold all_up at 2 3;
      repeat case_decide; lia.
  - rewrite !Forall_app. repeat split; try done; by repeat constructor.
Qed.

(** ** Both generators *)

Lemma stateless_ret {A} (a : A) : stateless (ret a).
Proof. done. Qed.

Lemma stateless_raise {A} e : stateless (@raise A e).
Proof. done. Qed.

Lemma stateless_journal c : stateless (journal c).
Proof. done. Qed.

Lemma stateless_bind {A B} (m : M A) (f : A → M B) :
  stateless m → (∀ a, stateless (f a)) → stateless (bind m f).
Proof.
  intros Hm Hf j1 j2. unfold bind. specialize (Hm j1 j2).
  destruct (m j1) as [[a1|e1] j1'], (m j2) as [[a2|e2] j2'];
    simpl in *; simplify_eq; [apply Hf | done].
Qed.

Lemma stateless_for_in {A S} (l : list A) (body : A → S → M S) s :
  (∀ x s, stateless (body x s)) → stateless (for_in l body s).
Proof.
  intros Hbody. revert s.
  induction l as [|x l IH]; intros s; simpl.
  - apply stateless_ret.
  - apply stateless_bind; [apply Hbody | apply IH].
Qed.

Lemma stateless_add_linear bqm v b : stateless (add_linear bqm v b).
Proof. done. Qed.

Lemma stateless_set_linear bqm v b : stateless (set_linear bqm v b).
Proof. done. Qed.

Lemma stateless_add_quadratic bqm u v b : stateless (add_quadratic bqm u v b).
Proof. intros j1 j2. unfold add_quadratic, bind, journal. by destruct (u =? v). Qed.

Lemma stateless_set_quadratic bqm u v b : stateless (set_quadratic bqm u v b).
Proof. intros j1 j2. unfold set_quadratic, bind, journal. by destruct (u =? v). Qed.

Lemma stateless_BinaryQuadraticModel vt : stateless (BinaryQuadraticModel vt).
Proof. done. Qed.

Create HintDb stateless.
#[local] Hint Resolve stateless_ret stateless_raise stateless_journal
  stateless_add_linear stateless_set_linear stateless_add_quadratic
  stateless_set_quadratic stateless_BinaryQuadraticModel : stateless.
#[local] Hint Extern 2 (stateless (bind _ _)) =>
  apply stateless_bind; [| intros ?] : stateless.
#[local] Hint Extern 2 (stateless (for_in _ _ _)) =>
  apply stateless_for_in; intros ? ? : stateless.
#[local] Hint Extern 2 (stateless (if ?c then _ else _)) =>
  destruct c : stateless.


Lemma clique_returns n :
  valid_clique n →
  ∃ bqm j, run (anti_crossing_clique n) = (Ok bqm, j)
           ∧ clique_model (int_truediv n 2) bqm j.
Proof.
  intros Hn. unfold run. by apply (proj1 (wp_returns _ _ _)), clique_run.
Qed.

Lemma loops_returns n :
  valid_loops n →
  ∃ bqm j, run (anti_crossing_loops n) = (Ok bqm, j)
           ∧ loops_model (int_truediv n 4) bqm j.
Proof.
  intros Hn. unfold run. by apply (proj1 (wp_returns _ _ _)), loops_run.
Qed.


Lemma invalid_clique_raises n :
  Z.odd n = true ∨ n < 6 →
  run (anti_crossing_clique n)
  = (Raise (ValueError "num_variables must be an even number >= 6"), []).
Proof.
  intros Hn. unfold run, anti_crossing_clique.
  destruct (negb (n mod 2 =? 0) || (n <? 6)) eqn:Hc; [done |].
  apply orb_false_elim in Hc as [Hmod Hlt].
  apply negb_false_iff, Z.eqb_eq in Hmod. apply Z.ltb_ge in Hlt.
  rewrite Zmod_odd in Hmod. destruct Hn as [Hodd|?]; [| lia].
  by rewrite Hodd in Hmod.
Qed.

Lemma invalid_loops_raises n :
  Z.odd n = true ∨ n < 8 →
  run (anti_crossing_loops n)
  = (Raise (ValueError "num_variables must be an even number >= 8"), []).
Proof.
  intros Hn. unfold run, anti_crossing_loops.
  destruct (negb (n mod 2 =? 0) || (n <? 8)) eqn:Hc; [done |].
  apply orb_false_elim in Hc as [Hmod Hlt].
  apply negb_false_iff, Z.eqb_eq in Hmod. apply Z.ltb_ge in Hlt.
  rewrite Zmod_odd in Hmod. destruct Hn as [Hodd|?]; [| lia].
  by rewrite Hodd in Hmod.
Qed.

Lemma valid_or_invalid n bound :
  (n mod 2 = 0 ∧ bound ≤ n) ∨ (Z.odd n = true ∨ n < bound).
Proof.
  rewrite Zmod_odd. destruct (Z.odd n); [by right; left |].
  destruct (decide (bound ≤ n)); [by left | right; right; lia].
Qed.



Lemma size_variables_range bqm n :
  0 ≤ n → (∀ v, v ∈ variables bqm ↔ 0 ≤ v < n) →
  size (variables bqm) = Z.to_nat n.
Proof.
  intros Hn Hv.
  assert (variables bqm = list_to_set (seqZ 0 n)) as ->.
  { apply set_eq. intros v.
    rewrite Hv, elem_of_list_to_set, elem_of_seqZ. lia. }
  rewrite size_list_to_set by apply NoDup_seqZ.
  apply length_seqZ.
Qed.

Example clique6_linear :
  map (linear_of (run (anti_crossing_clique 6))) [0; 1; 2; 3; 4; 5; 6]
  = [Some 1; Some 0; Some 1; Some (-1); Some (-1); Some (-1); None].
Proof. vm_compute. reflexivity. Qed.

Example loops8_quadratic :
  map (λ '(u, v), quadratic_of (run (anti_crossing_loops 8)) u v)
      [(0, 1); (1, 0); (1, 3); (0, 2); (2, 3); (0, 4); (3, 7)]
  = [Some (-1); Some (-1); Some (-1); None; Some (-1); Some (-1); Some (-1)].
Proof. vm_compute. reflexivity. Qed.

(** The calls of a run for six variables, in the order of the source. *)
Example clique6_journal :
  journal_of (run (anti_crossing_clique 6))
  = [CallInit SPIN;
     CallAddQuadratic 0 1 (-1); CallAddQuadratic 0 2 (-1);
     CallAddQuadratic 0 3 (-1); CallAddLinear 0 1; CallAddLinear 3 (-1);
     CallAddQuadratic 1 2 (-1); CallAddQuadratic 1 4 (-1);
     CallAddLinear 1 1; CallAddLinear 4 (-1);
     CallAddQuadratic 2 5 (-1); CallAddLinear 2 1; CallAddLinear 5 (-1);
     CallSetLinear 1 0].
Proof. vm_compute. reflexivity. Qed.

(** With a quarter of 2 the cycle of each loop is one edge, written from
    both of its ends. *)
Example loops8_journal :
  journal_of (run (anti_crossing_loops 8))
  = [CallInit SPIN;
     CallSetQuadratic 0 1 (-1); CallSetQuadratic 2 3 (-1);
     CallSetQuadratic 0 4 (-1); CallSetQuadratic 2 6 (-1);
     CallAddLinear 0 1; CallAddLinear 2 1;
     CallAddLinear 4 (-1); CallAddLinear 6 (-1);
     CallSetQuadratic 1 3 (-1);
     CallSetQuadratic 1 0 (-1); CallSetQuadratic 3 2 (-1);
     CallSetQuadratic 1 5 (-1); CallSetQuadratic 3 7 (-1);
     CallAddLinear 1 1; CallAddLinear 3 1;
     CallAddLinear 5 (-1); CallAddLinear 7 (-1);
     CallSetLinear 0 0; CallSetLinear 2 0].
Proof. vm_compute. reflexivity. Qed.

Example clique6_energy :
  energy_of (run (anti_crossing_clique 6)) all_up = Some (-7)
  ∧ energy_of (run (anti_crossing_clique 6)) (λ _, -1) = Some (-5).
Proof. split; vm_compute; reflexivity. Qed.

Example loops8_energy :
  energy_of (run (anti_crossing_loops 8)) all_up = Some (-9)
  ∧ energy_of (run (anti_crossing_loops 8)) (λ _, -1) = Some (-5).
Proof. split; vm_compute; reflexivity. Qed.

(** The failure branch of the edge operations: equal endpoints raise. *)
Example add_quadratic_self bqm u b j :
  add_quadratic bqm u u b j
  = (Raise (ValueError "cannot add an interaction between a variable and itself"),
     j ++ [CallAddQuadratic u u b]).
Proof. unfold add_quadratic, bind, journal. by rewrite Z.eqb_refl. Qed.

Example set_quadratic_self bqm u b j :
  set_quadratic bqm u u b j
  = (Raise (ValueError "cannot add an interaction between a variable and itself"),
     j ++ [CallSetQuadratic u u b]).
Proof. unfold set_quadratic, bind, journal. by rewrite Z.eqb_refl. Qed.



(** ** The claims *)



(** C2 (the code departs from it): at [num_variables = 10] the loops
    generator returns a model on the eight variables 0..7; the variables 8
    and 9 are not nodes of it. *)
Theorem loops_10_variables :
  ∃ bqm j,
    run (anti_crossing_loops 10) = (Ok bqm, j)
    ∧ (∀ v, v ∈ variables bqm ↔ 0 ≤ v < 8)
    ∧ (8 ∉ variables bqm) ∧ (9 ∉ variables bqm)
    ∧ size (variables bqm) = 8%nat.
Proof.
  assert (valid_loops 10) as Hn by (split; [reflexivity | lia]).
  destruct (loops_returns 10 Hn) as (bqm & j & Hrun & Hm).
  exists bqm, j. destruct Hm as [_ Hvars _ _ _ _ _].
  change (4 * int_truediv 10 4) with 8 in Hvars.
  split; [exact Hrun |]. split; [exact Hvars |].
  split; [rewrite Hvars; lia |]. split; [rewrite Hvars; lia |].
  rewrite (size_variables_range bqm 8); [reflexivity | lia | exact Hvars].
Qed.



(** C4: the clique generator raises exactly when [num_variables] is odd or
    below 6, the loops generator exactly when it is odd or below 8, and a
    run that raises has made no call on the model library: not even the
    empty model has been constructed. *)
Theorem raises_exactly_on_invalid_size n :
  ((∃ e, (run (anti_crossing_clique n)).1 = Raise e) ↔ Z.odd n = true ∨ n < 6)
  ∧ (Z.odd n = true ∨ n < 6 →
     run (anti_crossing_clique n)
     = (Raise (ValueError "num_variables must be an even number >= 6"), []))
  ∧ ((∃ e, (run (anti_crossing_loops n)).1 = Raise e) ↔ Z.odd n = true ∨ n < 8)
  ∧ (Z.odd n = true ∨ n < 8 →
     run (anti_crossing_loops n)
     = (Raise (ValueError "num_variables must be an even number >= 8"), [])).
Proof.
  split; [| split; [apply invalid_clique_raises |
                    split; [| apply invalid_loops_raises]]].
  - split.
    + intros [e He]. destruct (valid_or_invalid n 6) as [Hv|Hi]; [| done].
      destruct (clique_returns n Hv) as (bqm & j & Hrun & _).
      by rewrite Hrun in He.
    + intros Hi. rewrite (invalid_clique_raises n Hi). by eexists.
  - split.
    + intros [e He]. destruct (valid_or_invalid n 8) as [Hv|Hi]; [| done].
      destruct (loops_returns n Hv) as (bqm & j & Hrun & _).
      by rewrite Hrun in He.
    + intros Hi. rewrite (invalid_loops_raises n Hi). by eexists.
Qed.

(** C5: in the model the loops generator returns for 16 variables, nodes 0
    and 4 have weight 0, nodes 1, 2, 3, 5, 6, 7 have weight +1, nodes 8 to
    15 have weight -1, and the edges between a node of group 0 and a node of
    group 1 are exactly (1, 5) and (3, 7), each of weight -1. *)
Theorem loops_16_model :
  ∃ bqm j,
    run (anti_crossing_loops 16) = (Ok bqm, j)
    ∧ get_linear bqm 0 = Some 0 ∧ get_linear bqm 4 = Some 0
    ∧ Forall (λ v, get_linear bqm v = Some 1) [1; 2; 3; 5; 6; 7]
    ∧ Forall (λ v, get_linear bqm v = Some (-1)) [8; 9; 10; 11; 12; 13; 14; 15]
    ∧ ∀ u v, 0 ≤ u < 4 → 4 ≤ v < 8 →
        get_quadratic bqm u v
        = if decide ((u, v) = (1, 5) ∨ (u, v) = (3, 7)) then Some (-1) else None.
Proof.
  assert (valid_loops 16) as Hn by (split; [reflexivity | lia]).
  destruct (loops_returns 16 Hn) as (bqm & j & Hrun & Hm).
  exists bqm, j. destruct Hm as [_ _ Hlin _ _ _ _].
  change (int_truediv 16 4) with 4 in Hlin.
  split; [exact Hrun |].
  split; [by rewrite Hlin |]. split; [by rewrite Hlin |].
  split; [repeat constructor; by rewrite Hlin |].
  split; [repeat constructor; by rewrite Hlin |].
  intros u v Hu Hv.
  change (get_quadratic bqm u v)
    with (quadratic_of (Ok bqm, j) u v).
  rewrite <-Hrun.
  assert (u = 0 ∨ u = 1 ∨ u = 2 ∨ u = 3) as Hu' by lia.
  assert (v = 4 ∨ v = 5 ∨ v = 6 ∨ v = 7) as Hv' by lia.
  destruct Hu' as [->|[->|[->| ->]]], Hv' as [->|[->|[->| ->]]];
    vm_compute; reflexivity.
Qed.











(** ** More on the runs: two postconditions at once *)






(** ** The clique generator: energies and lower bounds of the excess *)

Section clique_tally.
Variable hf : Z.
Hypothesis Hhf : 3 ≤ hf.



End clique_tally.


(** ** The loops generator: energies and lower bounds of the excess *)

Lemma spin_overwrite_cases (β p : Z) :
  β = 0 ∨ β = -1 → p ≤ 1 → 0 ≤ (-1 - β) * p - (-1 - β).
Proof. intros [->| ->] Hp; lia. Qed.

Section loops_bounds.
Variable hf : Z.
Hypothesis Hhf : 2 ≤ hf.




End loops_bounds.

(** ** The loops generator: the edges after each iteration *)





Section loops_tally.
Variable hf : Z.
Hypothesis Hhf : 2 ≤ hf.






End loops_tally.







(** ** Further properties of the generators *)

















